(** * sqlcipher_extras.h: the SQLITE_HAS_CODEC guard header

    The repository is one C header,
    [Sources/CSQLCipher/include/sqlcipher_extras.h].  It holds nothing but
    preprocessor directives, so the program to verify is a short
    preprocessor script and its meaning is given by the conditional
    inclusion and macro definition rules of the C preprocessor
    (C11 6.10.1 and 6.10.3).

    The development has three layers:
    - [Cpp]: the fragment of the C preprocessor the header exercises, as an
      executable interpreter over a macro table and as a small-step
      relation, with the proof that the two agree, and the same interpreter
      placed in surroundings that the macro table does not describe;
    - the header itself, transcribed line by line;
    - the properties of the header. *)

From Stdlib Require Import ZArith.
From stdpp Require Import gmap strings list fin_maps relations.

Open Scope Z_scope.
Open Scope string_scope.
Open Scope list_scope.

(** ** The preprocessor fragment *)

Module Cpp.

(** Preprocessing tokens.  A pp-number that is an integer literal carries
    its value. *)
Inductive pp_token : Type :=
  | PPNumber (n : Z)
  | PPIdent (s : string)
  | PPPunct (s : string).

#[global] Instance pp_token_eq_dec : EqDecision pp_token.
Proof. solve_decision. Defined.

(** One logical source line after comments have been replaced by white
    space (translation phase 3): a directive, or a text line with its
    tokens.  A blank line is [PPText []]. *)
Inductive line : Type :=
  | PPIfndef (name : string)
  | PPIfdef (name : string)
  | PPDefine (name : string) (body : list pp_token)
  | PPUndef (name : string)
  | PPEndif
  | PPText (toks : list pp_token).

(** What the preprocessor can complain about in this fragment. *)
Inductive diagnostic : Type :=
  | MacroRedefined (name : string)
  | EndifWithoutIf
  | UnterminatedConditional.

#[global] Instance diagnostic_eq_dec : EqDecision diagnostic.
Proof. solve_decision. Defined.

(** The preprocessor state that outlives a file: the table of object-like
    macros (name to replacement list), the tokens of the text lines that
    conditional inclusion has kept so far, and the diagnostics issued so
    far.  Macro replacement inside text lines is not modelled: [emitted]
    holds the kept text lines as written. *)
Record pp_state : Type := mk_pp_state {
  macros : gmap string (list pp_token);
  emitted : list pp_token;
  diags : list diagnostic
}.

(** The state a compiler starts a translation unit in: the macros given on
    the command line or built in, nothing emitted, nothing diagnosed. *)
Definition initial_state (predefined : gmap string (list pp_token)) : pp_state :=
  {| macros := predefined; emitted := []; diags := [] |}.

Definition is_defined (name : string) (st : pp_state) : bool :=
  bool_decide (is_Some (macros st !! name)).

Definition add_diag (d : diagnostic) (st : pp_state) : pp_state :=
  {| macros := macros st; emitted := emitted st; diags := diags st ++ [d] |}.

(** [#define name body].  Defining a macro again with the same replacement
    list is allowed; with a different one the new definition wins and a
    redefinition diagnostic is issued. *)
Definition define (name : string) (body : list pp_token) (st : pp_state) : pp_state :=
  match macros st !! name with
  | None =>
      {| macros := <[name := body]> (macros st);
         emitted := emitted st; diags := diags st |}
  | Some old =>
      if decide (old = body) then st
      else {| macros := <[name := body]> (macros st);
              emitted := emitted st;
              diags := diags st ++ [MacroRedefined name] |}
  end.

Definition undef (name : string) (st : pp_state) : pp_state :=
  {| macros := delete name (macros st);
     emitted := emitted st; diags := diags st |}.

Definition emit (toks : list pp_token) (st : pp_state) : pp_state :=
  {| macros := macros st; emitted := emitted st ++ toks; diags := diags st |}.

(** The stack of open conditionals of the file being read, innermost
    first.  An entry is [true] when the group it opened is being processed;
    a group nested in a skipped group is skipped, so the innermost entry
    alone tells whether the current line is live. *)
Definition cond_stack : Type := list bool.

Definition active (cs : cond_stack) : bool :=
  match cs with
  | [] => true
  | b :: _ => b
  end.

(** One line, in the given conditional context. *)
Definition exec_line (l : line) (cs : cond_stack) (st : pp_state)
  : cond_stack * pp_state :=
  match l with
  | PPIfndef name => ((active cs && negb (is_defined name st)) :: cs, st)
  | PPIfdef name => ((active cs && is_defined name st) :: cs, st)
  | PPEndif =>
      match cs with
      | [] => ([], add_diag EndifWithoutIf st)
      | _ :: cs' => (cs', st)
      end
  | PPDefine name body => (cs, if active cs then define name body st else st)
  | PPUndef name => (cs, if active cs then undef name st else st)
  | PPText toks => (cs, if active cs then emit toks st else st)
  end.

Fixpoint exec_lines (f : list line) (cs : cond_stack) (st : pp_state)
  : cond_stack * pp_state :=
  match f with
  | [] => (cs, st)
  | l :: f' => let '(cs', st') := exec_line l cs st in exec_lines f' cs' st'
  end.

(** The end of a file: every conditional it opened must have been closed. *)
Definition close_file (cs : cond_stack) (st : pp_state) : pp_state :=
  match cs with
  | [] => st
  | _ :: _ => add_diag UnterminatedConditional st
  end.

(** [#include] of a file whose lines are [f], met on a live line: the file
    is read with a conditional stack of its own. *)
Definition include (f : list line) (st : pp_state) : pp_state :=
  let '(cs, st') := exec_lines f [] st in close_file cs st'.

(** What lies outside the state.

    Some macro names are defined by the implementation outside the macro
    table, and what they stand for is not fixed by the preprocessor state:
    it depends on the file being read, the line reached, the time of the
    run and how often they were used before (C11 6.10.8.1 for the first
    four; the others are common extensions). *)
Definition dynamic_builtins : list string :=
  [ "__FILE__"; "__LINE__"; "__DATE__"; "__TIME__";
    "__TIMESTAMP__"; "__COUNTER__"; "__INCLUDE_LEVEL__"; "__BASE_FILE__" ].

Definition is_builtin (name : string) : bool :=
  bool_decide (name ∈ dynamic_builtins).

(** The greatest value every implementation can hold in [intmax_t], the
    type in which [#if] computes (C11 6.10.1p4, 7.20.2.5): an
    implementation's own INTMAX_MAX is at least this. *)
Definition intmax_guaranteed : Z := 2 ^ 63 - 1.

(** The value of the controlling expression [#if name] for a single
    identifier, where this model determines it.  An identifier that is
    neither in the macro table nor one of [dynamic_builtins] is not a macro
    and counts as 0 (C11 6.10.1p4); a macro of the table whose replacement
    list is one integer literal between 0 and [intmax_guaranteed] has that
    literal's value.  Every other case (a replacement list that is an
    expression, a literal too large, or a list naming other macros, which
    has to be rescanned against the table; a name of [dynamic_builtins])
    needs macro replacement and the constant-expression evaluator, which
    the header never uses: the answer is then [None], meaning not
    determined here, and not that the value is 0. *)
Definition if_value (name : string) (st : pp_state) : option Z :=
  if is_builtin name then None
  else
    match macros st !! name with
    | None => Some 0
    | Some [PPNumber n] =>
        if bool_decide (0 <= n <= intmax_guaranteed) then Some n else None
    | Some _ => None
    end.

(** [name] is a macro and [if_value] determines that [#if name] holds.
    The test is one-sided: [true] means that [#if name] is taken; [false]
    is returned both when the value is 0 and when [if_value] does not
    determine it, so [false] says that [#if name] is skipped only for a
    replacement list that is the literal 0. *)
Definition defined_nonzero (name : string) (st : pp_state) : bool :=
  is_defined name st &&
  match if_value name st with
  | Some n => negb (Z.eqb n 0)
  | None => false
  end.

(** The identifiers spelled in a token sequence.  Every symbol a
    translation unit declares or defines is spelled by one of them. *)
Fixpoint identifiers (toks : list pp_token) : list string :=
  match toks with
  | [] => []
  | PPIdent s :: toks' => s :: identifiers toks'
  | _ :: toks' => identifiers toks'
  end.

(** *** Small-step presentation

    A configuration is the rest of the file, the conditional stack and the
    state.  Each rule is one case of the directive semantics. *)
Definition config : Type := list line * cond_stack * pp_state.

Inductive step : config -> config -> Prop :=
  | step_ifndef_taken name f cs st :
      active cs = true -> macros st !! name = None ->
      step (PPIfndef name :: f, cs, st) (f, true :: cs, st)
  | step_ifndef_skipped name f cs st :
      active cs = false \/ is_Some (macros st !! name) ->
      step (PPIfndef name :: f, cs, st) (f, false :: cs, st)
  | step_ifdef_taken name f cs st :
      active cs = true -> is_Some (macros st !! name) ->
      step (PPIfdef name :: f, cs, st) (f, true :: cs, st)
  | step_ifdef_skipped name f cs st :
      active cs = false \/ macros st !! name = None ->
      step (PPIfdef name :: f, cs, st) (f, false :: cs, st)
  | step_endif f b cs st :
      step (PPEndif :: f, b :: cs, st) (f, cs, st)
  | step_endif_stray f st :
      step (PPEndif :: f, [], st) (f, [], add_diag EndifWithoutIf st)
  | step_define name body f cs st :
      active cs = true ->
      step (PPDefine name body :: f, cs, st) (f, cs, define name body st)
  | step_undef name f cs st :
      active cs = true ->
      step (PPUndef name :: f, cs, st) (f, cs, undef name st)
  | step_text toks f cs st :
      active cs = true ->
      step (PPText toks :: f, cs, st) (f, cs, emit toks st)
  | step_dead_define name body f cs st :
      active cs = false ->
      step (PPDefine name body :: f, cs, st) (f, cs, st)
  | step_dead_undef name f cs st :
      active cs = false ->
      step (PPUndef name :: f, cs, st) (f, cs, st)
  | step_dead_text toks f cs st :
      active cs = false ->
      step (PPText toks :: f, cs, st) (f, cs, st).

(** Reading the file [f] from [st] ends in [st']: the steps run until no
    line is left, then the file is closed. *)
Definition includes (f : list line) (st st' : pp_state) : Prop :=
  exists cs st1, rtc step (f, [], st) ([], cs, st1) /\ st' = close_file cs st1.

(** *** The interpreter in its surroundings

    The names of [dynamic_builtins] get their meaning from outside the
    state. *)

(** The surroundings of one reading of a file: for each line of the file
    (counted from 0) and each such name, the tokens the name stands for
    there. *)
Definition environment : Type := nat -> string -> list pp_token.

(** A kept text line with the names above replaced by what they stand for
    on that line. *)
Fixpoint expand_builtins (val : string -> list pp_token) (toks : list pp_token)
  : list pp_token :=
  match toks with
  | [] => []
  | PPIdent s :: toks' =>
      (if is_builtin s then val s else [PPIdent s]) ++ expand_builtins val toks'
  | t :: toks' => t :: expand_builtins val toks'
  end.

(** [#ifdef] and [#ifndef] see these names as defined. *)
Definition is_defined_in (name : string) (st : pp_state) : bool :=
  is_builtin name || is_defined name st.

(** One line read in given surroundings.  The macro table is handled as in
    [exec_line]; C11 6.10.8p2 forbids [#define] and [#undef] of the names
    above and no meaning beyond the table update is given to them here. *)
Definition exec_line_in (val : string -> list pp_token)
    (l : line) (cs : cond_stack) (st : pp_state) : cond_stack * pp_state :=
  match l with
  | PPIfndef name => ((active cs && negb (is_defined_in name st)) :: cs, st)
  | PPIfdef name => ((active cs && is_defined_in name st) :: cs, st)
  | PPText toks =>
      (cs, if active cs then emit (expand_builtins val toks) st else st)
  | PPDefine _ _ | PPUndef _ | PPEndif => exec_line l cs st
  end.

Fixpoint exec_lines_in (env : environment) (n : nat)
    (f : list line) (cs : cond_stack) (st : pp_state) : cond_stack * pp_state :=
  match f with
  | [] => (cs, st)
  | l :: f' =>
      let '(cs', st') := exec_line_in (env n) l cs st in
      exec_lines_in env (S n) f' cs' st'
  end.

(** [#include] of the file [f] in the surroundings [env]. *)
Definition include_in (env : environment) (f : list line) (st : pp_state)
  : pp_state :=
  let '(cs, st') := exec_lines_in env 0 f [] st in close_file cs st'.

(** A line that neither tests nor spells one of the names above. *)
Definition line_is_closed (l : line) : bool :=
  match l with
  | PPIfndef name | PPIfdef name => negb (is_builtin name)
  | PPText toks => forallb (fun s => negb (is_builtin s)) (identifiers toks)
  | PPDefine _ _ | PPUndef _ | PPEndif => true
  end.

End Cpp.

Import Cpp.

(** ** The header *)

Definition SQLCIPHER_EXTRAS_H : string := "SQLCIPHER_EXTRAS_H".
Definition SQLITE_HAS_CODEC : string := "SQLITE_HAS_CODEC".

(** [sqlcipher_extras.h], line by line.  Lines 1 to 13 are one comment,
    which phase 3 turns into white space, and the comment after the last
    [#endif] goes the same way.  The file stops right after that comment,
    without a final newline; compilers read line 22 as if it had one. *)
Definition sqlcipher_extras_h : list line :=
  [ PPText [];                                (* 1-13: comment block *)
    PPText [];                                (* 14 *)
    PPIfndef SQLCIPHER_EXTRAS_H;              (* 15 *)
    PPDefine SQLCIPHER_EXTRAS_H [];           (* 16 *)
    PPText [];                                (* 17 *)
    PPIfndef SQLITE_HAS_CODEC;                (* 18 *)
    PPDefine SQLITE_HAS_CODEC [PPNumber 1];   (* 19 *)
    PPEndif;                                  (* 20 *)
    PPText [];                                (* 21 *)
    PPEndif ].                                (* 22 *)

(** [#include "sqlcipher_extras.h"]. *)
Definition include_shim (st : pp_state) : pp_state :=
  include sqlcipher_extras_h st.

(** Modelled from the spec: the SQLCipher public header
    [sqlite_nio_sqlcipher.h] is not among the sources.  The header comment
    of [sqlcipher_extras.h] and the spec say its SQLCipher entry points are
    hidden behind [#ifdef SQLITE_HAS_CODEC]; such a header is taken here
    with its guarded declarations [decls] as a parameter. *)
Definition codec_guarded_header (decls : list (list pp_token)) : list line :=
  PPIfdef SQLITE_HAS_CODEC :: map PPText decls ++ [PPEndif].

(** Modelled from the spec: one guarded declaration of the missing header,
    [int sqlite3_key(sqlite3 *db, const void *pKey, int nKey);], used for
    concrete runs only. *)
Definition sqlite3_key_decl : list pp_token :=
  [ PPIdent "int"; PPIdent "sqlite3_key"; PPPunct "(";
    PPIdent "sqlite3"; PPPunct "*"; PPIdent "db"; PPPunct ",";
    PPIdent "const"; PPIdent "void"; PPPunct "*"; PPIdent "pKey"; PPPunct ",";
    PPIdent "int"; PPIdent "nKey"; PPPunct ")"; PPPunct ";" ].

(** Concrete starting states used below. *)
Definition clean_state : pp_state := initial_state ∅.

Definition codec_predefined (body : list pp_token) : pp_state :=
  initial_state {[ SQLITE_HAS_CODEC := body ]}.

Definition guard_predefined : pp_state :=
  initial_state {[ SQLCIPHER_EXTRAS_H := [] ]}.

(** Two different surroundings: in the first every name of
    [dynamic_builtins] stands for the number of the line, in the second for
    nothing. *)
Definition env_line_numbers : environment :=
  fun n _ => [PPNumber (Z.of_nat n)].

Definition env_blank : environment := fun _ _ => [].

(** The header included [n] times in a row. *)
Definition include_shim_n (n : nat) (st : pp_state) : pp_state :=
  Nat.iter n include_shim st.

(** The two translation units of the visibility scenario: the shim and then
    the guarded header, and the guarded header alone. *)
Definition tu_with_shim (decls : list (list pp_token)) (st : pp_state) : pp_state :=
  include (codec_guarded_header decls) (include_shim st).

Definition tu_without_shim (decls : list (list pp_token)) (st : pp_state) : pp_state :=
  include (codec_guarded_header decls) st.

(** ** Sanity checks on concrete runs *)

Example include_clean :
  include_shim clean_state =
  initial_state (<[SQLITE_HAS_CODEC := [PPNumber 1]]>
                   (<[SQLCIPHER_EXTRAS_H := []]> ∅)).
Proof. reflexivity. Qed.

Example include_clean_lookup :
  macros (include_shim clean_state) !! SQLITE_HAS_CODEC = Some [PPNumber 1].
Proof. reflexivity. Qed.

Example include_predefined_2 :
  macros (include_shim (codec_predefined [PPNumber 2])) !! SQLITE_HAS_CODEC
  = Some [PPNumber 2].
Proof. reflexivity. Qed.

Example include_guard_predefined :
  include_shim guard_predefined = guard_predefined.
Proof. reflexivity. Qed.

Example include_after_undef :
  macros (include_shim (undef SQLITE_HAS_CODEC (include_shim clean_state)))
    !! SQLITE_HAS_CODEC = None.
Proof. reflexivity. Qed.

Example tu_with_shim_clean :
  emitted (tu_with_shim [sqlite3_key_decl] clean_state) = sqlite3_key_decl.
Proof. reflexivity. Qed.

Example tu_without_shim_clean :
  emitted (tu_without_shim [sqlite3_key_decl] clean_state) = [].
Proof. reflexivity. Qed.

(** ** Facts about the preprocessor fragment *)

Section cpp_facts.
Implicit Types (st : pp_state) (cs : cond_stack) (f : list line) (l : line).
Implicit Types (name : string).

Lemma is_defined_true name st :
  is_defined name st = true <-> is_Some (macros st !! name).
Proof. unfold is_defined. by rewrite bool_decide_eq_true. Qed.

Lemma is_defined_false name st :
  is_defined name st = false <-> macros st !! name = None.
Proof.
  unfold is_defined.
  by rewrite bool_decide_eq_false, eq_None_not_Some.
Qed.

Lemma is_defined_Some name st body :
  macros st !! name = Some body -> is_defined name st = true.
Proof. intros H. apply is_defined_true. by exists body. Qed.

Lemma emit_nil st : emit [] st = st.
Proof. destruct st. unfold emit. simpl. by rewrite app_nil_r. Qed.

Lemma define_fresh name body st :
  macros st !! name = None ->
  define name body st =
  {| macros := <[name := body]> (macros st);
     emitted := emitted st; diags := diags st |}.
Proof. intros H. unfold define. by rewrite H. Qed.

(** The interpreter and the step relation describe the same line. *)
Lemma step_exec_line l f cs st :
  step (l :: f, cs, st) (f, (exec_line l cs st).1, (exec_line l cs st).2).
Proof.
  destruct l as [name|name|name body|name| |toks]; simpl.
  - destruct (active cs) eqn:Ha, (is_defined name st) eqn:Hd; simpl.
    + apply step_ifndef_skipped. right. by apply is_defined_true.
    + apply step_ifndef_taken; [done | by apply is_defined_false].
    + apply step_ifndef_skipped. by left.
    + apply step_ifndef_skipped. by left.
  - destruct (active cs) eqn:Ha, (is_defined name st) eqn:Hd; simpl.
    + apply step_ifdef_taken; [done | by apply is_defined_true].
    + apply step_ifdef_skipped. right. by apply is_defined_false.
    + apply step_ifdef_skipped. by left.
    + apply step_ifdef_skipped. by left.
  - destruct (active cs) eqn:Ha; by constructor.
  - destruct (active cs) eqn:Ha; by constructor.
  - destruct cs; simpl; constructor.
  - destruct (active cs) eqn:Ha; by constructor.
Qed.

Lemma step_inv c c' :
  step c c' ->
  exists l f cs st,
    c = (l :: f, cs, st) /\
    c' = (f, (exec_line l cs st).1, (exec_line l cs st).2).
Proof.
  intros Hs.
  destruct Hs as
    [name f cs st Ha Hn | name f cs st Hor
    |name f cs st Ha Hs | name f cs st Hor
    |f b cs st | f st
    |name body f cs st Ha | name f cs st Ha | toks f cs st Ha
    |name body f cs st Ha | name f cs st Ha | toks f cs st Ha].
  - exists (PPIfndef name), f, cs, st. split; [done|]. simpl.
    apply is_defined_false in Hn. by rewrite Ha, Hn.
  - exists (PPIfndef name), f, cs, st. split; [done|]. simpl.
    destruct Hor as [Ha | Hs].
    + by rewrite Ha.
    + apply is_defined_true in Hs. rewrite Hs. by rewrite andb_false_r.
  - exists (PPIfdef name), f, cs, st. split; [done|]. simpl.
    apply is_defined_true in Hs. by rewrite Ha, Hs.
  - exists (PPIfdef name), f, cs, st. split; [done|]. simpl.
    destruct Hor as [Ha | Hn].
    + by rewrite Ha.
    + apply is_defined_false in Hn. rewrite Hn. by rewrite andb_false_r.
  - by exists PPEndif, f, (b :: cs), st.
  - by exists PPEndif, f, [], st.
  - exists (PPDefine name body), f, cs, st. simpl. by rewrite Ha.
  - exists (PPUndef name), f, cs, st. simpl. by rewrite Ha.
  - exists (PPText toks), f, cs, st. simpl. by rewrite Ha.
  - exists (PPDefine name body), f, cs, st. simpl. by rewrite Ha.
  - exists (PPUndef name), f, cs, st. simpl. by rewrite Ha.
  - exists (PPText toks), f, cs, st. simpl. by rewrite Ha.
Qed.

Lemma step_deterministic c c1 c2 : step c c1 -> step c c2 -> c1 = c2.
Proof.
  intros H1 H2.
  apply step_inv in H1 as (l1 & f1 & cs1 & st1 & -> & ->).
  apply step_inv in H2 as (l2 & f2 & cs2 & st2 & Heq & ->).
  by simplify_eq.
Qed.

Lemma exec_lines_cons l f cs st :
  exec_lines (l :: f) cs st =
  exec_lines f (exec_line l cs st).1 (exec_line l cs st).2.
Proof. simpl. by destruct (exec_line l cs st). Qed.

(** The interpreter is a run of the step relation to the end of the
    file... *)
Lemma exec_lines_steps f cs st :
  rtc step (f, cs, st)
           ([], (exec_lines f cs st).1, (exec_lines f cs st).2).
Proof.
  revert cs st. induction f as [|l f IH]; intros cs st.
  - apply rtc_refl.
  - rewrite exec_lines_cons.
    eapply rtc_l; [apply step_exec_line | apply IH].
Qed.

(** ... and the only one. *)
Lemma steps_exec_lines c c' :
  rtc step c c' ->
  forall cs' st', c' = ([], cs', st') ->
  exec_lines c.1.1 c.1.2 c.2 = (cs', st').
Proof.
  induction 1 as [c | c c2 c' Hs _ IH]; intros cs' st' Hc'.
  - by subst c.
  - apply step_inv in Hs as (l & f & cs & st & -> & ->).
    cbn [fst snd] in *. rewrite exec_lines_cons. by apply IH.
Qed.

Lemma includes_include f st st' :
  includes f st st' <-> st' = include f st.
Proof.
  unfold includes, include. split.
  - intros (cs & st1 & Hrtc & ->).
    pose proof (steps_exec_lines _ _ Hrtc cs st1 eq_refl) as He.
    cbn [fst snd] in He. by rewrite He.
  - intros ->.
    exists (exec_lines f [] st).1, (exec_lines f [] st).2.
    split; [apply exec_lines_steps | by destruct (exec_lines f [] st)].
Qed.
End cpp_facts.

(** ** What one inclusion of the header does *)

Section shim_facts.
Implicit Types (st : pp_state) (body : list pp_token) (name : string).

Lemma codec_ne_guard : SQLITE_HAS_CODEC <> SQLCIPHER_EXTRAS_H.
Proof. done. Qed.

(** Run the directive semantics as far as the known facts allow. *)
Ltac run_lines :=
  cbn [exec_lines exec_line active andb negb close_file macros emitted diags];
  rewrite ?emit_nil.

(** Guard already defined: line 15 fails and everything up to line 22 is
    skipped. *)
Lemma include_shim_guarded st :
  is_Some (macros st !! SQLCIPHER_EXTRAS_H) -> include_shim st = st.
Proof.
  intros Hg. apply is_defined_true in Hg.
  unfold include_shim, include, sqlcipher_extras_h.
  run_lines. rewrite Hg. by run_lines.
Qed.

(** Guard free, SQLITE_HAS_CODEC already defined: line 16 runs, line 19
    is skipped. *)
Lemma include_shim_kept st body :
  macros st !! SQLCIPHER_EXTRAS_H = None ->
  macros st !! SQLITE_HAS_CODEC = Some body ->
  include_shim st =
  {| macros := <[SQLCIPHER_EXTRAS_H := []]> (macros st);
     emitted := emitted st; diags := diags st |}.
Proof.
  intros Hg Hc.
  unfold include_shim, include, sqlcipher_extras_h.
  run_lines.
  rewrite (proj2 (is_defined_false _ _) Hg). run_lines.
  rewrite (define_fresh _ _ _ Hg). run_lines.
  rewrite (is_defined_Some SQLITE_HAS_CODEC _ body); [by run_lines|].
  cbn [macros]. by rewrite lookup_insert_ne.
Qed.

(** Guard free, SQLITE_HAS_CODEC free: lines 16 and 19 both run. *)
Lemma include_shim_fresh st :
  macros st !! SQLCIPHER_EXTRAS_H = None ->
  macros st !! SQLITE_HAS_CODEC = None ->
  include_shim st =
  {| macros := <[SQLITE_HAS_CODEC := [PPNumber 1]]>
                 (<[SQLCIPHER_EXTRAS_H := []]> (macros st));
     emitted := emitted st; diags := diags st |}.
Proof.
  intros Hg Hc.
  assert (Hc' : <[SQLCIPHER_EXTRAS_H := []]> (macros st) !! SQLITE_HAS_CODEC
                = None) by by rewrite lookup_insert_ne.
  unfold include_shim, include, sqlcipher_extras_h.
  run_lines.
  rewrite (proj2 (is_defined_false _ _) Hg). run_lines.
  rewrite (define_fresh _ _ _ Hg). run_lines.
  rewrite (proj2 (is_defined_false SQLITE_HAS_CODEC (mk_pp_state _ _ _)) Hc').
  run_lines.
  rewrite (define_fresh _ _ (mk_pp_state _ _ _) Hc'). by run_lines.
Qed.

(** The three cases together. *)
Lemma include_shim_cases st :
  (is_Some (macros st !! SQLCIPHER_EXTRAS_H) /\ include_shim st = st)
  \/ (macros st !! SQLCIPHER_EXTRAS_H = None /\
      is_Some (macros st !! SQLITE_HAS_CODEC) /\
      include_shim st =
      {| macros := <[SQLCIPHER_EXTRAS_H := []]> (macros st);
         emitted := emitted st; diags := diags st |})
  \/ (macros st !! SQLCIPHER_EXTRAS_H = None /\
      macros st !! SQLITE_HAS_CODEC = None /\
      include_shim st =
      {| macros := <[SQLITE_HAS_CODEC := [PPNumber 1]]>
                     (<[SQLCIPHER_EXTRAS_H := []]> (macros st));
         emitted := emitted st; diags := diags st |}).
Proof.
  destruct (macros st !! SQLCIPHER_EXTRAS_H) as [g|] eqn:Hg.
  - left. split; [by exists g|]. apply include_shim_guarded. by exists g.
  - right. destruct (macros st !! SQLITE_HAS_CODEC) as [body|] eqn:Hc.
    + left. split_and!; [done | by exists body |].
      by apply include_shim_kept with body.
    + right. split_and!; [done | done |]. by apply include_shim_fresh.
Qed.

(** After an inclusion the guard is defined, whatever the start. *)
Lemma include_shim_guard_set st :
  is_Some (macros (include_shim st) !! SQLCIPHER_EXTRAS_H).
Proof.
  destruct (include_shim_cases st)
    as [[Hg ->] | [(_ & _ & ->) | (_ & _ & ->)]]; cbn [macros].
  - done.
  - rewrite lookup_insert_eq. by eexists.
  - rewrite lookup_insert_ne by apply codec_ne_guard.
    rewrite lookup_insert_eq. by eexists.
Qed.

Lemma include_shim_twice st : include_shim (include_shim st) = include_shim st.
Proof. apply include_shim_guarded, include_shim_guard_set. Qed.

Lemma include_shim_n_succ n st : include_shim_n (S n) st = include_shim st.
Proof.
  induction n as [|n IH]; [done|].
  change (include_shim_n (S (S n)) st)
    with (include_shim (include_shim_n (S n) st)).
  rewrite IH. apply include_shim_twice.
Qed.

Lemma include_shim_n_after k st :
  include_shim_n k (include_shim st) = include_shim st.
Proof.
  induction k as [|k IH]; [done|].
  change (include_shim_n (S k) (include_shim st))
    with (include_shim (include_shim_n k (include_shim st))).
  rewrite IH. apply include_shim_twice.
Qed.

Lemma include_shim_emitted st : emitted (include_shim st) = emitted st.
Proof.
  by destruct (include_shim_cases st)
    as [[_ ->] | [(_ & _ & ->) | (_ & _ & ->)]].
Qed.

Lemma include_shim_diags st : diags (include_shim st) = diags st.
Proof.
  by destruct (include_shim_cases st)
    as [[_ ->] | [(_ & _ & ->) | (_ & _ & ->)]].
Qed.

Lemma include_shim_other name st :
  name <> SQLITE_HAS_CODEC -> name <> SQLCIPHER_EXTRAS_H ->
  macros (include_shim st) !! name = macros st !! name.
Proof.
  intros Hc Hg.
  destruct (include_shim_cases st)
    as [[_ ->] | [(_ & _ & ->) | (_ & _ & ->)]]; cbn [macros].
  - done.
  - by rewrite lookup_insert_ne.
  - by rewrite !lookup_insert_ne.
Qed.

Lemma include_shim_codec_kept st body :
  macros st !! SQLITE_HAS_CODEC = Some body ->
  macros (include_shim st) !! SQLITE_HAS_CODEC = Some body.
Proof.
  intros Hc.
  destruct (include_shim_cases st)
    as [[_ ->] | [(_ & _ & ->) | (_ & Hn & _)]]; cbn [macros].
  - done.
  - by rewrite lookup_insert_ne.
  - congruence.
Qed.

Lemma include_shim_codec_fresh st :
  macros st !! SQLCIPHER_EXTRAS_H = None ->
  macros st !! SQLITE_HAS_CODEC = None ->
  macros (include_shim st) !! SQLITE_HAS_CODEC = Some [PPNumber 1].
Proof.
  intros Hg Hc. rewrite include_shim_fresh by done.
  cbn [macros]. by rewrite lookup_insert_eq.
Qed.

End shim_facts.

(** ** What including a codec-guarded header does *)

Section guarded_header_facts.
Implicit Types (st : pp_state) (decls : list (list pp_token)).

Lemma exec_guarded_group_live decls st :
  exec_lines (map PPText decls ++ [PPEndif]) [true] st =
  ([], {| macros := macros st;
          emitted := emitted st ++ concat decls;
          diags := diags st |}).
Proof.
  revert st. induction decls as [|toks decls IH]; intros st.
  - destruct st. cbn. by rewrite app_nil_r.
  - cbn [map app concat]. rewrite exec_lines_cons.
    cbn [exec_line active fst snd]. rewrite IH.
    cbn [emit macros emitted diags]. by rewrite app_assoc.
Qed.

Lemma exec_guarded_group_dead decls st :
  exec_lines (map PPText decls ++ [PPEndif]) [false] st = ([], st).
Proof.
  induction decls as [|toks decls IH]; [done|].
  cbn [map app]. rewrite exec_lines_cons. by cbn [exec_line active fst snd].
Qed.

(** With SQLITE_HAS_CODEC defined (to anything) the declarations pass. *)
Lemma include_guarded_visible decls st :
  is_Some (macros st !! SQLITE_HAS_CODEC) ->
  include (codec_guarded_header decls) st =
  {| macros := macros st;
     emitted := emitted st ++ concat decls;
     diags := diags st |}.
Proof.
  intros Hc%is_defined_true.
  unfold include, codec_guarded_header. rewrite exec_lines_cons.
  cbn [exec_line active andb fst snd]. rewrite Hc.
  by rewrite exec_guarded_group_live.
Qed.

(** Without it they are dropped. *)
Lemma include_guarded_hidden decls st :
  macros st !! SQLITE_HAS_CODEC = None ->
  include (codec_guarded_header decls) st = st.
Proof.
  intros Hc%is_defined_false.
  unfold include, codec_guarded_header. rewrite exec_lines_cons.
  cbn [exec_line active andb fst snd]. rewrite Hc.
  by rewrite exec_guarded_group_dead.
Qed.
End guarded_header_facts.

(** ** Properties of the header *)

Section token_facts.
Lemma identifiers_app (a b : list pp_token) :
  identifiers (a ++ b) = identifiers a ++ identifiers b.
Proof.
  induction a as [|[n|s|s] a IH]; cbn [app identifiers]; [done| |f_equal|];
    by rewrite IH.
Qed.

End token_facts.




(** C2: whenever SQLITE_HAS_CODEC is already defined, with whatever
    replacement list [V] (0 and 2 included), the inclusion leaves that
    definition as it is. *)
Theorem predefined_codec_preserved (st : pp_state) (V : list pp_token) :
  macros st !! SQLITE_HAS_CODEC = Some V ->
  macros (include_shim st) !! SQLITE_HAS_CODEC = Some V.
Proof. apply include_shim_codec_kept. Qed.

Lemma predefined_codec_preserved_witness :
  (macros (codec_predefined [PPNumber 0]) !! SQLITE_HAS_CODEC
     = Some [PPNumber 0] /\
   macros (include_shim (codec_predefined [PPNumber 0])) !! SQLITE_HAS_CODEC
     = Some [PPNumber 0]) /\
  (macros (codec_predefined [PPNumber 2]) !! SQLITE_HAS_CODEC
     = Some [PPNumber 2] /\
   macros (include_shim (codec_predefined [PPNumber 2])) !! SQLITE_HAS_CODEC
     = Some [PPNumber 2]).
Proof.
  split; (split; [reflexivity|]).
  - apply (predefined_codec_preserved (codec_predefined [PPNumber 0])).
    reflexivity.
  - apply (predefined_codec_preserved (codec_predefined [PPNumber 2])).
    reflexivity.
Defined.

(** C3, as stated, fails: with the guard SQLCIPHER_EXTRAS_H already defined
    and SQLITE_HAS_CODEC not defined, SQLITE_HAS_CODEC is still not defined
    after the inclusion, because line 15 skips the whole body. *)
Lemma codec_undefined_when_guard_predefined :
  macros guard_predefined !! SQLITE_HAS_CODEC = None /\
  macros (include_shim guard_predefined) !! SQLITE_HAS_CODEC = None.
Proof. split; reflexivity. Qed.

(** C3, amended: from every state in which neither SQLITE_HAS_CODEC nor the
    include guard SQLCIPHER_EXTRAS_H is defined, after the inclusion
    SQLITE_HAS_CODEC is defined and its replacement list is exactly the
    integer literal 1. *)
Theorem codec_defined_to_one (st : pp_state) :
  macros st !! SQLCIPHER_EXTRAS_H = None ->
  macros st !! SQLITE_HAS_CODEC = None ->
  macros (include_shim st) !! SQLITE_HAS_CODEC = Some [PPNumber 1].
Proof. apply include_shim_codec_fresh. Qed.

Lemma codec_defined_to_one_witness :
  macros clean_state !! SQLCIPHER_EXTRAS_H = None /\
  macros clean_state !! SQLITE_HAS_CODEC = None /\
  macros (include_shim clean_state) !! SQLITE_HAS_CODEC = Some [PPNumber 1].
Proof.
  split_and!; [reflexivity | reflexivity |].
  apply (codec_defined_to_one clean_state); reflexivity.
Defined.

(** C4, as stated, fails: starting from SQLITE_HAS_CODEC predefined to 0,
    the state reached after two inclusions has SQLITE_HAS_CODEC defined to
    0, which is not truthy. *)
Lemma codec_not_truthy_after_two_inclusions :
  macros (include_shim_n 2 (codec_predefined [PPNumber 0])) !! SQLITE_HAS_CODEC
    = Some [PPNumber 0] /\
  defined_nonzero SQLITE_HAS_CODEC
    (include_shim_n 2 (codec_predefined [PPNumber 0])) = false.
Proof. split; reflexivity. Qed.

(** C4, amended: from every state in which the include guard is not defined
    and SQLITE_HAS_CODEC is either not defined or defined to a nonzero
    integer literal, after any number [S n] of inclusions SQLITE_HAS_CODEC
    is defined to a nonzero integer literal; and from any state whatever,
    further inclusions after the first leave the whole state, so
    SQLITE_HAS_CODEC too, as the first left it. *)
Theorem codec_truthy_invariant (st : pp_state) (n : nat) :
  macros st !! SQLCIPHER_EXTRAS_H = None ->
  (macros st !! SQLITE_HAS_CODEC = None \/
   exists v : Z, macros st !! SQLITE_HAS_CODEC = Some [PPNumber v] /\ v <> 0) ->
  (exists v : Z,
     macros (include_shim_n (S n) st) !! SQLITE_HAS_CODEC = Some [PPNumber v]
     /\ v <> 0) /\
  (forall (st' : pp_state) (k : nat),
     include_shim_n k (include_shim st') = include_shim st').
Proof.
  intros Hg Hc. split; [|intros st' k; apply include_shim_n_after].
  rewrite include_shim_n_succ.
  destruct Hc as [Hc | (v & Hc & Hv)].
  - exists 1. split; [by apply include_shim_codec_fresh | done].
  - exists v. split; [by apply include_shim_codec_kept | done].
Qed.

Lemma codec_truthy_invariant_witness :
  macros clean_state !! SQLCIPHER_EXTRAS_H = None /\
  (macros clean_state !! SQLITE_HAS_CODEC = None \/
   exists v : Z,
     macros clean_state !! SQLITE_HAS_CODEC = Some [PPNumber v] /\ v <> 0) /\
  (exists v : Z,
     macros (include_shim_n 3 clean_state) !! SQLITE_HAS_CODEC
       = Some [PPNumber v] /\ v <> 0) /\
  (forall (st' : pp_state) (k : nat),
     include_shim_n k (include_shim st') = include_shim st').
Proof.
  split; [reflexivity|]. split; [left; reflexivity|].
  apply (codec_truthy_invariant clean_state 2); [reflexivity|].
  left. reflexivity.
Defined.

(** C5: from every state and for every [N >= 1], [N] inclusions in a row
    end in the same state as one inclusion, and no diagnostic (macro
    redefinition, stray or missing [#endif]) is issued on the way. *)
Theorem include_shim_idempotent (st : pp_state) (N : nat) :
  (1 <= N)%nat ->
  include_shim_n N st = include_shim st /\
  diags (include_shim_n N st) = diags st.
Proof.
  intros HN. destruct N as [|n]; [lia|].
  rewrite include_shim_n_succ. split; [done | apply include_shim_diags].
Qed.

Lemma include_shim_idempotent_witness :
  (1 <= 3)%nat /\
  include_shim_n 3 (codec_predefined [PPNumber 2])
    = include_shim (codec_predefined [PPNumber 2]) /\
  diags (include_shim_n 3 (codec_predefined [PPNumber 2]))
    = diags (codec_predefined [PPNumber 2]).
Proof.
  split; [lia|].
  apply (include_shim_idempotent (codec_predefined [PPNumber 2]) 3). lia.
Defined.

(** C6: the inclusion changes the definition of no macro other than
    SQLITE_HAS_CODEC and SQLCIPHER_EXTRAS_H, and it emits no token: the
    tokens kept so far are the same before and after, and a translation
    unit made of the inclusion alone is empty, whatever macros are
    predefined, so that it spells no identifier at all. *)
Theorem include_shim_frame (st : pp_state) (name : string) :
  name <> SQLITE_HAS_CODEC -> name <> SQLCIPHER_EXTRAS_H ->
  macros (include_shim st) !! name = macros st !! name /\
  emitted (include_shim st) = emitted st /\
  (forall predefined : gmap string (list pp_token),
     emitted (include_shim (initial_state predefined)) = [] /\
     identifiers (emitted (include_shim (initial_state predefined))) = []).
Proof.
  intros Hc Hg. split_and!.
  - by apply include_shim_other.
  - apply include_shim_emitted.
  - intros predefined. by rewrite include_shim_emitted.
Qed.

Lemma include_shim_frame_witness :
  "NDEBUG" <> SQLITE_HAS_CODEC /\ "NDEBUG" <> SQLCIPHER_EXTRAS_H /\
  macros (include_shim (initial_state {[ "NDEBUG" := [] ]})) !! "NDEBUG"
    = macros (initial_state {[ "NDEBUG" := [] ]}) !! "NDEBUG" /\
  emitted (include_shim (initial_state {[ "NDEBUG" := [] ]}))
    = emitted (initial_state {[ "NDEBUG" := [] ]}) /\
  (forall predefined : gmap string (list pp_token),
     emitted (include_shim (initial_state predefined)) = [] /\
     identifiers (emitted (include_shim (initial_state predefined))) = []).
Proof.
  split; [discriminate|]. split; [discriminate|].
  apply (include_shim_frame (initial_state {[ "NDEBUG" := [] ]}) "NDEBUG");
    discriminate.
Defined.

(** C7, as stated, fails: compiled with SQLCIPHER_EXTRAS_H predefined, the
    translation unit that includes the shim and then a header declaring
    [sqlite3_key] under [#ifdef SQLITE_HAS_CODEC] keeps no token of the
    declaration. *)
Lemma shim_then_guarded_header_hidden :
  emitted (tu_with_shim [sqlite3_key_decl] guard_predefined) = [].
Proof. reflexivity. Qed.

(** C7, amended: for every list of declarations guarded by
    [#ifdef SQLITE_HAS_CODEC] and every starting state in which the include
    guard SQLCIPHER_EXTRAS_H is not defined, the translation unit that
    includes the shim and then the guarded header keeps all the guarded
    declarations, so every identifier they spell is there to refer to;
    the same unit without the shim, started without a definition of
    SQLITE_HAS_CODEC, keeps none of them. *)
Theorem shim_exposes_guarded_decls
    (decls : list (list pp_token)) (st : pp_state) :
  macros st !! SQLCIPHER_EXTRAS_H = None ->
  emitted (tu_with_shim decls st) = emitted st ++ concat decls /\
  (forall id : string,
     id ∈ identifiers (concat decls) ->
     id ∈ identifiers (emitted (tu_with_shim decls st))) /\
  (macros st !! SQLITE_HAS_CODEC = None ->
   emitted (tu_without_shim decls st) = emitted st).
Proof.
  intros Hg.
  assert (He : emitted (tu_with_shim decls st) = emitted st ++ concat decls).
  { unfold tu_with_shim. rewrite include_guarded_visible.
    - cbn [emitted]. by rewrite include_shim_emitted.
    - destruct (macros st !! SQLITE_HAS_CODEC) as [body|] eqn:Hc.
      + exists body. by apply include_shim_codec_kept.
      + exists [PPNumber 1]. by apply include_shim_codec_fresh. }
  split_and!.
  - done.
  - intros id Hid. rewrite He, identifiers_app. set_solver.
  - intros Hc. unfold tu_without_shim. by rewrite include_guarded_hidden.
Qed.

Lemma shim_exposes_guarded_decls_witness :
  macros clean_state !! SQLCIPHER_EXTRAS_H = None /\
  emitted (tu_with_shim [sqlite3_key_decl] clean_state)
    = emitted clean_state ++ concat [sqlite3_key_decl] /\
  (forall id : string,
     id ∈ identifiers (concat [sqlite3_key_decl]) ->
     id ∈ identifiers (emitted (tu_with_shim [sqlite3_key_decl] clean_state)))
  /\
  (macros clean_state !! SQLITE_HAS_CODEC = None ->
   emitted (tu_without_shim [sqlite3_key_decl] clean_state)
     = emitted clean_state).
Proof.
  split; [reflexivity|].
  apply (shim_exposes_guarded_decls [sqlite3_key_decl] clean_state).
  reflexivity.
Defined.

(** C8: when the include guard SQLCIPHER_EXTRAS_H is already defined, the
    inclusion leaves the whole state as it was; in particular, if
    SQLITE_HAS_CODEC was not defined it is still not defined afterwards. *)
Theorem predefined_guard_disables_shim (st : pp_state) :
  is_Some (macros st !! SQLCIPHER_EXTRAS_H) ->
  include_shim st = st /\
  (macros st !! SQLITE_HAS_CODEC = None ->
   macros (include_shim st) !! SQLITE_HAS_CODEC = None).
Proof.
  intros Hg. pose proof (include_shim_guarded st Hg) as Hs.
  split; [done | by rewrite Hs].
Qed.

Lemma predefined_guard_disables_shim_witness :
  is_Some (macros guard_predefined !! SQLCIPHER_EXTRAS_H) /\
  macros guard_predefined !! SQLITE_HAS_CODEC = None /\
  include_shim guard_predefined = guard_predefined /\
  (macros guard_predefined !! SQLITE_HAS_CODEC = None ->
   macros (include_shim guard_predefined) !! SQLITE_HAS_CODEC = None).
Proof.
  assert (Hg : is_Some (macros guard_predefined !! SQLCIPHER_EXTRAS_H))
    by (exists []; reflexivity).
  split; [exact Hg|]. split; [reflexivity|].
  apply (predefined_guard_disables_shim guard_predefined Hg).
Defined.

(** A file whose lines neither test nor spell a name of
    [dynamic_builtins] is read the same way in all surroundings. *)
Lemma expand_builtins_closed (val : string -> list pp_token)
    (toks : list pp_token) :
  forallb (fun s => negb (is_builtin s)) (identifiers toks) = true ->
  expand_builtins val toks = toks.
Proof.
  induction toks as [|[n|s|s] toks IH]; cbn [identifiers forallb expand_builtins].
  - done.
  - intros H. by rewrite IH.
  - intros [Hs H]%andb_true_iff. apply negb_true_iff in Hs.
    rewrite Hs. cbn [app]. by rewrite IH.
  - intros H. by rewrite IH.
Qed.

Lemma exec_line_in_closed (val : string -> list pp_token)
    (l : line) (cs : cond_stack) (st : pp_state) :
  line_is_closed l = true -> exec_line_in val l cs st = exec_line l cs st.
Proof.
  destruct l as [name|name|name body|name| |toks];
    cbn [line_is_closed exec_line_in exec_line]; try done.
  - intros H%negb_true_iff. unfold is_defined_in. by rewrite H.
  - intros H%negb_true_iff. unfold is_defined_in. by rewrite H.
  - intros H. by rewrite expand_builtins_closed.
Qed.

Lemma exec_lines_in_closed (env : environment) (n : nat)
    (f : list line) (cs : cond_stack) (st : pp_state) :
  forallb line_is_closed f = true ->
  exec_lines_in env n f cs st = exec_lines f cs st.
Proof.
  revert n cs st. induction f as [|l f IH]; intros n cs st; [done|].
  cbn [forallb exec_lines_in exec_lines]. intros [Hl Hf]%andb_true_iff.
  rewrite exec_line_in_closed by done.
  destruct (exec_line l cs st) as [cs' st']. by apply IH.
Qed.

(** The surroundings do matter for other files: a file whose one line
    spells [__LINE__] leaves different tokens in different surroundings. *)
Example surroundings_matter_elsewhere :
  include_in env_line_numbers [PPText [PPIdent "__LINE__"]] clean_state <>
  include_in env_blank [PPText [PPIdent "__LINE__"]] clean_state.
Proof. discriminate. Qed.

(** C9: the state after the inclusion is a function of the state before it
    and of nothing else.  Read from the same state in any two surroundings
    (file name, line numbering, date and time, counter), the header ends in
    the same state, and that state is the one computed from the starting
    state alone: no line of the header tests or spells a name whose meaning
    lies outside the macro table. *)
Theorem include_shim_environment_independent
    (env1 env2 : environment) (st : pp_state) :
  include_in env1 sqlcipher_extras_h st = include_in env2 sqlcipher_extras_h st
  /\ include_in env1 sqlcipher_extras_h st = include_shim st.
Proof.
  assert (Hclosed : forallb line_is_closed sqlcipher_extras_h = true)
    by reflexivity.
  unfold include_in, include_shim, include.
  by rewrite !exec_lines_in_closed.
Qed.

(** ** Further properties of the header

    What lines 15 to 22 show beyond the properties above: which states an
    inclusion leaves alone, what it can never remove, how it behaves next
    to a consumer's own [#define] and [#undef] of the two macros, and in
    which conditional context it can be read. *)

(** X1: an inclusion leaves the state untouched exactly when the include
    guard SQLCIPHER_EXTRAS_H was already defined; from any other state it
    changes the state (line 16 defines the guard). *)
Theorem shim_noop_iff_guard_defined (st : pp_state) :
  include_shim st = st <-> is_Some (macros st !! SQLCIPHER_EXTRAS_H).
Proof.
  split; [|apply include_shim_guarded].
  intros Hfix. rewrite <- Hfix. apply include_shim_guard_set.
Qed.

(** X2: an inclusion never removes or changes a macro definition that was
    there before it, the two macros of the header included: the old macro
    table is contained in the new one. *)
Theorem shim_only_adds_definitions (st : pp_state) :
  macros st ⊆ macros (include_shim st).
Proof.
  destruct (include_shim_cases st)
    as [[_ ->] | [(Hg & _ & ->) | (Hg & Hc & ->)]]; cbn [macros].
  - done.
  - by apply insert_subseteq.
  - trans (<[SQLCIPHER_EXTRAS_H := []]> (macros st)).
    + by apply insert_subseteq.
    + apply insert_subseteq. by rewrite lookup_insert_ne.
Qed.

(** X3: from a state without the include guard, the macros defined after
    the inclusion are those defined before plus SQLCIPHER_EXTRAS_H and
    SQLITE_HAS_CODEC, and nothing else. *)
Theorem shim_defined_macros (st : pp_state) :
  macros st !! SQLCIPHER_EXTRAS_H = None ->
  dom (macros (include_shim st)) =
  dom (macros st) ∪ {[ SQLCIPHER_EXTRAS_H; SQLITE_HAS_CODEC ]}.
Proof.
  intros Hg.
  destruct (include_shim_cases st)
    as [[[g Hg'] _] | [(_ & Hc & ->) | (_ & _ & ->)]]; cbn [macros].
  - congruence.
  - apply elem_of_dom in Hc. rewrite dom_insert_L.
    apply set_eq. intros x. rewrite !elem_of_union, !elem_of_singleton.
    split; [tauto | intros [?|[?| ->]]; tauto].
  - rewrite !dom_insert_L.
    apply set_eq. intros x. rewrite !elem_of_union, !elem_of_singleton.
    tauto.
Qed.

Lemma shim_defined_macros_witness :
  macros (codec_predefined [PPNumber 2]) !! SQLCIPHER_EXTRAS_H = None /\
  dom (macros (include_shim (codec_predefined [PPNumber 2]))) =
  dom (macros (codec_predefined [PPNumber 2]))
    ∪ {[ SQLCIPHER_EXTRAS_H; SQLITE_HAS_CODEC ]}.
Proof.
  split; [reflexivity|].
  apply (shim_defined_macros (codec_predefined [PPNumber 2])). reflexivity.
Defined.

(** X4: after an inclusion the include guard SQLCIPHER_EXTRAS_H is defined,
    from whatever state; a definition it had before is kept, and otherwise
    its replacement list is empty (line 16). *)
Theorem guard_defined_after_include (st : pp_state) :
  is_Some (macros (include_shim st) !! SQLCIPHER_EXTRAS_H) /\
  (forall body : list pp_token,
     macros st !! SQLCIPHER_EXTRAS_H = Some body ->
     macros (include_shim st) !! SQLCIPHER_EXTRAS_H = Some body) /\
  (macros st !! SQLCIPHER_EXTRAS_H = None ->
   macros (include_shim st) !! SQLCIPHER_EXTRAS_H = Some []).
Proof.
  split_and!.
  - apply include_shim_guard_set.
  - intros body Hg. rewrite include_shim_guarded; [done | by exists body].
  - intros Hg.
    destruct (include_shim_cases st)
      as [[[g Hg'] _] | [(_ & _ & ->) | (_ & _ & ->)]]; cbn [macros].
    + congruence.
    + by rewrite lookup_insert_eq.
    + rewrite lookup_insert_ne by apply codec_ne_guard.
      by rewrite lookup_insert_eq.
Qed.

(** X5: once the header has been included, [#undef SQLITE_HAS_CODEC]
    followed by another inclusion leaves SQLITE_HAS_CODEC undefined, because
    the guard is still set; only if SQLCIPHER_EXTRAS_H is undefined as well
    does the next inclusion define SQLITE_HAS_CODEC to 1 again. *)
Theorem undef_codec_not_restored (st : pp_state) :
  macros (include_shim (undef SQLITE_HAS_CODEC (include_shim st)))
    !! SQLITE_HAS_CODEC = None /\
  macros (include_shim
            (undef SQLCIPHER_EXTRAS_H
               (undef SQLITE_HAS_CODEC (include_shim st))))
    !! SQLITE_HAS_CODEC = Some [PPNumber 1].
Proof.
  split.
  - rewrite include_shim_guarded.
    + cbn [undef macros]. apply lookup_delete_eq.
    + cbn [undef macros]. rewrite lookup_delete_ne by apply codec_ne_guard.
      apply include_shim_guard_set.
  - apply include_shim_codec_fresh; cbn [undef macros].
    + apply lookup_delete_eq.
    + rewrite lookup_delete_ne by (symmetry; apply codec_ne_guard).
      apply lookup_delete_eq.
Qed.

(** X6: the header closes every conditional it opens, in any context.  Read
    inside the conditionals [cs] of an enclosing text, it leaves [cs] as it
    found it; in a live context its effect on the state is that of an
    inclusion, in a skipped context it has none. *)
Theorem shim_balanced_in_context (cs : cond_stack) (st : pp_state) :
  exec_lines sqlcipher_extras_h cs st =
  (cs, if active cs then include_shim st else st).
Proof.
  destruct (active cs) eqn:Ha;
    [|unfold sqlcipher_extras_h;
      cbn [exec_lines exec_line active andb negb]; by rewrite Ha].
  destruct (include_shim_cases st)
    as [[Hg ->] | [(Hg & [body Hc] & ->) | (Hg & Hc & ->)]];
    unfold sqlcipher_extras_h;
    cbn [exec_lines exec_line]; rewrite Ha, !emit_nil.
  - apply is_defined_true in Hg. rewrite Hg.
    by cbn [andb negb active].
  - rewrite (proj2 (is_defined_false _ _) Hg).
    cbn [andb negb active]. rewrite (define_fresh _ _ _ Hg).
    rewrite (is_defined_Some SQLITE_HAS_CODEC _ body)
      by (cbn [macros]; by rewrite lookup_insert_ne).
    by cbn [andb negb active].
  - assert (Hc' : <[SQLCIPHER_EXTRAS_H := []]> (macros st) !! SQLITE_HAS_CODEC
                  = None) by by rewrite lookup_insert_ne.
    rewrite (proj2 (is_defined_false _ _) Hg).
    cbn [andb negb active]. rewrite (define_fresh _ _ _ Hg).
    rewrite (proj2 (is_defined_false SQLITE_HAS_CODEC (mk_pp_state _ _ _)) Hc').
    cbn [andb negb active].
    rewrite (define_fresh _ _ (mk_pp_state _ _ _) Hc').
    done.
Qed.

(** The effect of an inclusion, written out on the macro table. *)
Lemma include_shim_closed_form (st : pp_state) :
  include_shim st =
  {| macros :=
       match macros st !! SQLCIPHER_EXTRAS_H, macros st !! SQLITE_HAS_CODEC with
       | Some _, _ => macros st
       | None, Some _ => <[SQLCIPHER_EXTRAS_H := []]> (macros st)
       | None, None =>
           <[SQLITE_HAS_CODEC := [PPNumber 1]]>
             (<[SQLCIPHER_EXTRAS_H := []]> (macros st))
       end;
     emitted := emitted st;
     diags := diags st |}.
Proof.
  destruct (include_shim_cases st)
    as [[[g Hg] ->] | [(Hg & [body Hc] & ->) | (Hg & Hc & ->)]].
  - rewrite Hg. by destruct st.
  - by rewrite Hg, Hc.
  - by rewrite Hg, Hc.
Qed.

(** Two macro tables built from the same one by inserts and deletes are
    compared key by key. *)
Ltac map_by_keys :=
  apply map_eq; intros ?;
  repeat (rewrite lookup_insert || rewrite lookup_delete);
  repeat case_decide; simplify_eq; try done.

(** X7: an inclusion commutes with a consumer's [#define] or [#undef] of any
    macro other than SQLITE_HAS_CODEC and SQLCIPHER_EXTRAS_H: the directive
    may come before or after the inclusion, the final state, diagnostics
    included, is the same. *)
Theorem shim_commutes_with_other_macros
    (st : pp_state) (name : string) (body : list pp_token) :
  name <> SQLITE_HAS_CODEC -> name <> SQLCIPHER_EXTRAS_H ->
  include_shim (define name body st) = define name body (include_shim st) /\
  include_shim (undef name st) = undef name (include_shim st).
Proof.
  intros Hc Hg. split.
  - unfold define. rewrite (include_shim_other name st Hc Hg).
    destruct (macros st !! name) as [old|] eqn:Hn;
      [destruct (decide (old = body)) as [->|Hne]; [done|] |];
      rewrite !include_shim_closed_form; cbn [macros emitted diags];
      rewrite !lookup_insert_ne by done;
      destruct (macros st !! SQLCIPHER_EXTRAS_H),
               (macros st !! SQLITE_HAS_CODEC);
      f_equal; map_by_keys.
  - unfold undef. rewrite !include_shim_closed_form.
    cbn [macros emitted diags]. rewrite !lookup_delete_ne by done.
    destruct (macros st !! SQLCIPHER_EXTRAS_H),
             (macros st !! SQLITE_HAS_CODEC);
      f_equal; map_by_keys.
Qed.

Lemma shim_commutes_with_other_macros_witness :
  "NDEBUG" <> SQLITE_HAS_CODEC /\ "NDEBUG" <> SQLCIPHER_EXTRAS_H /\
  include_shim (define "NDEBUG" [PPNumber 1] clean_state)
    = define "NDEBUG" [PPNumber 1] (include_shim clean_state) /\
  include_shim (undef "NDEBUG" clean_state)
    = undef "NDEBUG" (include_shim clean_state).
Proof.
  split; [discriminate|]. split; [discriminate|].
  apply (shim_commutes_with_other_macros clean_state "NDEBUG" [PPNumber 1]);
    discriminate.
Defined.

(** X8: an inclusion commutes with [#define SQLITE_HAS_CODEC 1]: whether the
    consumer writes that line before or after the inclusion, and whatever
    the state, the final state is the same, diagnostics included.  The
    value 1 of line 19 is what makes the later [#define] a benign
    redefinition. *)
Theorem shim_commutes_with_define_one (st : pp_state) :
  include_shim (define SQLITE_HAS_CODEC [PPNumber 1] st) =
  define SQLITE_HAS_CODEC [PPNumber 1] (include_shim st).
Proof.
  rewrite !include_shim_closed_form. unfold define.
  destruct (macros st !! SQLCIPHER_EXTRAS_H) as [g|] eqn:Hg,
           (macros st !! SQLITE_HAS_CODEC) as [old|] eqn:Hc;
    try destruct (decide (old = [PPNumber 1])) as [->|Hne];
    cbn [macros emitted diags];
    repeat (rewrite lookup_insert_eq
            || (rewrite lookup_insert_ne by done)
            || rewrite Hg || rewrite Hc
            || (rewrite decide_True by done)
            || (rewrite decide_False by done));
    cbn [macros emitted diags].
  all: try (by destruct st).
  all: f_equal; map_by_keys.
Qed.

(** X9: with any other replacement list the order matters.  From a state
    where neither macro of the header is defined, [#define SQLITE_HAS_CODEC
    body] written after the inclusion redefines the 1 of line 19 and draws
    a macro-redefinition diagnostic; written before the inclusion it draws
    none.  Either way SQLITE_HAS_CODEC ends up as [body]. *)
Theorem define_after_shim_diagnosed (st : pp_state) (body : list pp_token) :
  macros st !! SQLCIPHER_EXTRAS_H = None ->
  macros st !! SQLITE_HAS_CODEC = None ->
  body <> [PPNumber 1] ->
  (diags (define SQLITE_HAS_CODEC body (include_shim st))
     = diags st ++ [MacroRedefined SQLITE_HAS_CODEC] /\
   macros (define SQLITE_HAS_CODEC body (include_shim st)) !! SQLITE_HAS_CODEC
     = Some body) /\
  (diags (include_shim (define SQLITE_HAS_CODEC body st)) = diags st /\
   macros (include_shim (define SQLITE_HAS_CODEC body st)) !! SQLITE_HAS_CODEC
     = Some body).
Proof.
  intros Hg Hc Hne. split.
  - rewrite (include_shim_fresh st Hg Hc). unfold define. cbn [macros].
    rewrite lookup_insert_eq.
    rewrite decide_False by congruence.
    cbn [macros diags]. split; [done | by rewrite lookup_insert_eq].
  - rewrite include_shim_diags.
    rewrite (define_fresh _ _ _ Hc). cbn [diags]. split; [done|].
    apply include_shim_codec_kept. cbn [macros]. by rewrite lookup_insert_eq.
Qed.

Lemma define_after_shim_diagnosed_witness :
  macros clean_state !! SQLCIPHER_EXTRAS_H = None /\
  macros clean_state !! SQLITE_HAS_CODEC = None /\
  [PPNumber 2] <> [PPNumber 1] /\
  (diags (define SQLITE_HAS_CODEC [PPNumber 2] (include_shim clean_state))
     = diags clean_state ++ [MacroRedefined SQLITE_HAS_CODEC] /\
   macros (define SQLITE_HAS_CODEC [PPNumber 2] (include_shim clean_state))
     !! SQLITE_HAS_CODEC = Some [PPNumber 2]) /\
  (diags (include_shim (define SQLITE_HAS_CODEC [PPNumber 2] clean_state))
     = diags clean_state /\
   macros (include_shim (define SQLITE_HAS_CODEC [PPNumber 2] clean_state))
     !! SQLITE_HAS_CODEC = Some [PPNumber 2]).
Proof.
  split; [reflexivity|]. split; [reflexivity|]. split; [discriminate|].
  apply (define_after_shim_diagnosed clean_state [PPNumber 2]);
    [reflexivity | reflexivity | discriminate].
Defined.

(** X10: the shim has to come first.  From a state without a definition of
    SQLITE_HAS_CODEC, a translation unit that includes a header guarded by
    [#ifdef SQLITE_HAS_CODEC] and only then the shim keeps none of the
    guarded declarations, although SQLITE_HAS_CODEC is defined to 1 at its
    end when the include guard was free. *)
Theorem shim_after_guarded_header_too_late
    (decls : list (list pp_token)) (st : pp_state) :
  macros st !! SQLITE_HAS_CODEC = None ->
  emitted (include_shim (tu_without_shim decls st)) = emitted st /\
  (macros st !! SQLCIPHER_EXTRAS_H = None ->
   macros (include_shim (tu_without_shim decls st)) !! SQLITE_HAS_CODEC
     = Some [PPNumber 1]).
Proof.
  intros Hc. unfold tu_without_shim.
  rewrite (include_guarded_hidden decls st Hc).
  split; [apply include_shim_emitted|].
  intros Hg. by apply include_shim_codec_fresh.
Qed.

Lemma shim_after_guarded_header_too_late_witness :
  macros clean_state !! SQLITE_HAS_CODEC = None /\
  emitted (include_shim (tu_without_shim [sqlite3_key_decl] clean_state))
    = emitted clean_state /\
  (macros clean_state !! SQLCIPHER_EXTRAS_H = None ->
   macros (include_shim (tu_without_shim [sqlite3_key_decl] clean_state))
     !! SQLITE_HAS_CODEC = Some [PPNumber 1]).
Proof.
  split; [reflexivity|].
  apply (shim_after_guarded_header_too_late [sqlite3_key_decl] clean_state).
  reflexivity.
Defined.

(** X11: what SQLITE_HAS_CODEC is after an inclusion depends on two things
    only: whether SQLCIPHER_EXTRAS_H was defined and what SQLITE_HAS_CODEC
    was.  Two states that agree on these end with the same definition of
    SQLITE_HAS_CODEC, however they differ elsewhere (other macros, the
    guard's replacement list, tokens kept, diagnostics). *)
Theorem shim_reads_only_its_two_macros (st1 st2 : pp_state) :
  (is_Some (macros st1 !! SQLCIPHER_EXTRAS_H) <->
   is_Some (macros st2 !! SQLCIPHER_EXTRAS_H)) ->
  macros st1 !! SQLITE_HAS_CODEC = macros st2 !! SQLITE_HAS_CODEC ->
  macros (include_shim st1) !! SQLITE_HAS_CODEC =
  macros (include_shim st2) !! SQLITE_HAS_CODEC.
Proof.
  intros Hg Hc. rewrite !include_shim_closed_form. cbn [macros].
  rewrite <- Hc.
  destruct (macros st1 !! SQLCIPHER_EXTRAS_H) as [g1|] eqn:Hg1,
           (macros st2 !! SQLCIPHER_EXTRAS_H) as [g2|] eqn:Hg2.
  - done.
  - destruct (proj1 Hg) as [? ?]; [by eexists | done].
  - destruct (proj2 Hg) as [? ?]; [by eexists | done].
  - destruct (macros st1 !! SQLITE_HAS_CODEC) as [old|] eqn:Hc1.
    + rewrite !lookup_insert_ne by done. congruence.
    + by rewrite !lookup_insert_eq.
Qed.

Lemma shim_reads_only_its_two_macros_witness :
  (is_Some (macros clean_state !! SQLCIPHER_EXTRAS_H) <->
   is_Some (macros (emit sqlite3_key_decl
                      (define "NDEBUG" [] clean_state)) !! SQLCIPHER_EXTRAS_H))
  /\
  macros (include_shim clean_state) !! SQLITE_HAS_CODEC =
  macros (include_shim (emit sqlite3_key_decl
                          (define "NDEBUG" [] clean_state)))
    !! SQLITE_HAS_CODEC.
Proof.
  assert (Hg : is_Some (macros clean_state !! SQLCIPHER_EXTRAS_H) <->
               is_Some (macros (emit sqlite3_key_decl
                                  (define "NDEBUG" [] clean_state))
                          !! SQLCIPHER_EXTRAS_H)).
  { split; intros [g Hg]; vm_compute in Hg; discriminate. }
  split; [exact Hg|].
  apply (shim_reads_only_its_two_macros clean_state
           (emit sqlite3_key_decl (define "NDEBUG" [] clean_state)) Hg).
  reflexivity.
Defined.
